(** * Day 1 dial puzzle: parser, rotation simulator and driving loop

    Shallow embedding of [src/day_1/src/puzzle_engine.rs] (the same three
    functions are duplicated verbatim in [src/day_1/src/main.rs]).

    A Rust [&str] is modelled as the list of its Unicode scalar values
    (code points, as [Z]); its byte length and byte-indexed slicing are
    computed from the UTF-8 width of each scalar, so [line.len()] and
    [&line[1..]] keep their byte semantics.  A [char] is its code point. *)

From Stdlib Require Import ZArith Lia List Bool Ascii String.
Import ListNotations.
Open Scope Z_scope.

(** ** Strings *)

Definition char := Z.
Definition str := list char.

(** Code points of the ASCII characters the code mentions. *)
Definition ch_L : char := 76.
Definition ch_R : char := 82.
Definition ch_plus : char := 43.
Definition ch_minus : char := 45.
Definition ch_0 : char := 48.
Definition ch_9 : char := 57.
Definition ch_nl : char := 10.
Definition ch_cr : char := 13.

(** Number of bytes of the UTF-8 encoding of a scalar value. *)
Definition utf8_width (c : char) : Z :=
  if c <? 128 then 1
  else if c <? 2048 then 2
  else if c <? 65536 then 3
  else 4.

(** [str::len]: the length in bytes. *)
Fixpoint str_len (s : str) : Z :=
  match s with
  | [] => 0
  | c :: s' => utf8_width c + str_len s'
  end.

(** [&s[i..]]: byte-indexed slicing; it panics (here [None]) when [i] is
    past the end or does not fall on a character boundary. *)
Fixpoint str_slice_from (s : str) (i : Z) : option str :=
  if i =? 0 then Some s
  else match s with
       | [] => None
       | c :: s' =>
           if utf8_width c <=? i then str_slice_from s' (i - utf8_width c)
           else None
       end.

(** [char::is_whitespace]: the Unicode [White_Space] property. *)
Definition is_whitespace (c : char) : bool :=
  ((9 <=? c) && (c <=? 13)) || (c =? 32) || (c =? 133) || (c =? 160)
  || (c =? 5760) || ((8192 <=? c) && (c <=? 8202))
  || (c =? 8232) || (c =? 8233) || (c =? 8239) || (c =? 8287)
  || (c =? 12288).

Fixpoint trim_start (s : str) : str :=
  match s with
  | [] => []
  | c :: s' => if is_whitespace c then trim_start s' else s
  end.

Definition trim_end (s : str) : str := rev (trim_start (rev s)).

(** [str::trim]. *)
Definition trim (s : str) : str := trim_end (trim_start s).

(** [str::split_inclusive('\n')]: pieces keep their terminator; no empty
    trailing piece is produced.  [acc] is the current piece, reversed. *)
Fixpoint split_inclusive_nl (s : str) (acc : str) : list str :=
  match s with
  | [] => match acc with [] => [] | _ => [rev acc] end
  | c :: s' =>
      if c =? ch_nl then rev (c :: acc) :: split_inclusive_nl s' []
      else split_inclusive_nl s' (c :: acc)
  end.

(** Removes a final [c] if present ([strip_suffix], keeping the line when
    the suffix is absent), reporting whether it did. *)
Definition strip_last (c : char) (s : str) : option str :=
  match rev s with
  | d :: r => if d =? c then Some (rev r) else None
  | [] => None
  end.

(** The per-line map of [str::lines]: strip ["\n"], then ["\r"] only if a
    ["\n"] was stripped. *)
Definition line_of_piece (s : str) : str :=
  match strip_last ch_nl s with
  | None => s
  | Some s1 => match strip_last ch_cr s1 with
               | None => s1
               | Some s2 => s2
               end
  end.

(** [str::lines]. *)
Definition str_lines (s : str) : list str :=
  map line_of_piece (split_inclusive_nl s []).

(** ** [str::parse::<i32>] ([i32::from_str], radix 10) *)

Inductive IntErrorKind := Empty | InvalidDigit | PosOverflow | NegOverflow.

Inductive result (A E : Type) : Type :=
| Ok : A -> result A E
| Err : E -> result A E.
Arguments Ok {A E} _.
Arguments Err {A E} _.

Definition i32_min : Z := - 2 ^ 31.
Definition i32_max : Z := 2 ^ 31 - 1.
Definition in_i32 (x : Z) : bool := (i32_min <=? x) && (x <=? i32_max).

(** [(c as char).to_digit(10)]. *)
Definition to_digit (c : char) : option Z :=
  if (ch_0 <=? c) && (c <=? ch_9) then Some (c - ch_0) else None.

(** The digit loop: [result = result.checked_mul(10)] then
    [checked_add(x)] (positive) or [checked_sub(x)] (negative); the digit
    is examined before the overflow of the multiplication is reported. *)
Fixpoint parse_digits (pos : bool) (ds : str) (acc : Z) : result Z IntErrorKind :=
  match ds with
  | [] => Ok acc
  | c :: ds' =>
      let mul := acc * 10 in
      match to_digit c with
      | None => Err InvalidDigit
      | Some x =>
          let ovf := if pos then PosOverflow else NegOverflow in
          if negb (in_i32 mul) then Err ovf
          else let r := if pos then mul + x else mul - x in
               if negb (in_i32 r) then Err ovf
               else parse_digits pos ds' r
      end
  end.

Definition parse_i32 (s : str) : result Z IntErrorKind :=
  match s with
  | [] => Err Empty
  | [c] => if (c =? ch_plus) || (c =? ch_minus) then Err InvalidDigit
           else parse_digits true s 0
  | c :: rest =>
      if c =? ch_plus then parse_digits true rest 0
      else if c =? ch_minus then parse_digits false rest 0
      else parse_digits true s 0
  end.

(** ** [parse_rotation] *)

(** The three [Err(format!(...))] branches of [parse_rotation], tagged by
    the failure they report: "Line too short", "Invalid direction",
    "Invalid number" (with the [ParseIntError] detail). *)
Inductive ParseError :=
| TooShort (line : str)
| InvalidDirection (line : str)
| InvalidMagnitude (line : str) (e : IntErrorKind).

(** [None] is a panic (only the slice [line[1..]] could panic). *)
Definition parse_rotation (line : str) : option (result (char * Z) ParseError) :=
  if str_len line <? 2 then Some (Err (TooShort line))
  else
    match line with
    | d :: _ =>
        if (d =? ch_L) || (d =? ch_R) then
          match str_slice_from line 1 with
          | None => None
          | Some tail =>
              match parse_i32 tail with
              | Ok n => Some (Ok (d, n))
              | Err e => Some (Err (InvalidMagnitude line e))
              end
          end
        else Some (Err (InvalidDirection line))
    | [] => Some (Err (InvalidDirection line))
    end.

(** ** [apply_rotation_with_zero_count] *)

(** One iteration of the [for _ in 0..distance] loop body; [None] is the
    [_ => break] arm. *)
Definition rotation_step (direction : char) (current : Z) : option Z :=
  if direction =? ch_R then Some (Z.rem (current + 1) 100)
  else if direction =? ch_L then Some (Z.rem (current - 1 + 100) 100)
  else None.

Fixpoint rotation_loop (n : nat) (direction : char) (current zero_count : Z) : Z * Z :=
  match n with
  | O => (current, zero_count)
  | S n' =>
      match rotation_step direction current with
      | None => (current, zero_count)
      | Some c =>
          rotation_loop n' direction c
            (if c =? 0 then zero_count + 1 else zero_count)
      end
  end.

(** [0..distance] runs [max 0 distance] times. *)
Definition apply_rotation_with_zero_count (position : Z) (direction : char)
    (distance : Z) : Z * Z :=
  rotation_loop (Z.to_nat distance) direction position 0.

(** ** [solve_puzzle] *)

Record state := mkState { position : Z; count : Z }.

Definition initial_state : state := mkState 50 0.

Definition u32_max : Z := 2 ^ 32 - 1.

(** The body of the [for line in input.lines()] loop.  [None] is a panic,
    which aborts the run: one of [parse_rotation], or the overflow of
    [count += zeros_during_rotation] on the [u32] [count] (overflow checks
    are on in a debug build, cargo's default). *)
Definition process_line (st : state) (raw : str) : option state :=
  let line := trim raw in
  match line with
  | [] => Some st
  | _ =>
      match parse_rotation line with
      | None => None
      | Some (Ok (direction, distance)) =>
          let (new_position, zeros) :=
            apply_rotation_with_zero_count (position st) direction distance in
          let total := count st + zeros in
          if total <=? u32_max then Some (mkState new_position total) else None
      | Some (Err _) => Some st
      end
  end.

Fixpoint solve_lines (st : state) (ls : list str) : option state :=
  match ls with
  | [] => Some st
  | l :: ls' =>
      match process_line st l with
      | None => None
      | Some st' => solve_lines st' ls'
      end
  end.

Definition solve_puzzle (input : str) : option Z :=
  match solve_lines initial_state (str_lines input) with
  | None => None
  | Some st => Some (count st)
  end.

(** ASCII text as a [str], for concrete inputs. *)
Definition of_ascii (s : string) : str :=
  map (fun a => Z.of_nat (nat_of_ascii a)) (list_ascii_of_string s).

(** ** Spec-side reading of the zero-hit count

    The number of [k] in [[1, m]] with [(p + k) mod 100 = 0] for ['R'] and
    [(p - k) mod 100 = 0] otherwise; used to state the counting claim. *)
Definition spec_target (direction : char) (p k : Z) : Z :=
  if direction =? ch_R then p + k else p - k.

Fixpoint spec_zero_hits (direction : char) (p : Z) (m : nat) : Z :=
  match m with
  | O => 0
  | S m' =>
      spec_zero_hits direction p m'
      + (if spec_target direction p (Z.of_nat m) mod 100 =? 0 then 1 else 0)
  end.

(** ** Console output and [main] ([src/day_1/src/main.rs])

    Each [println!]/[eprintln!] call site is one constructor carrying the
    arguments of its format string. *)
Inductive Event :=
| EWarning (line : str) (e : ParseError)
    (** ["Warning: Invalid rotation '{}': {}"] *)
| ENotFound (filename : str)       (** ["Error: File '{}' not found"] *)
| ENotFoundHint                    (** ["Make sure you're running from ..."] *)
| EPermissionDenied (filename : str)
    (** ["Error: Permission denied reading '{}'"] *)
| EPermissionHint                  (** ["Check file permissions"] *)
| EReadError (display : str)       (** ["Error reading file: {}"] *)
| OPassword (n : Z)                (** ["Password: {}"] *)
| EPanic.                          (** the panic message of the runtime *)




(** The [eprintln!] of the [Err(e)] arm of the loop of [solve_puzzle]. *)
Definition line_warning (raw : str) : list Event :=
  let line := trim raw in
  match line with
  | [] => []
  | _ => match parse_rotation line with
         | Some (Err e) => [EWarning line e]
         | _ => []
         end
  end.






(** ** Spec-side helpers for the extra properties *)

(** All characters are ASCII digits. *)
Definition all_digits (ds : str) : bool :=
  forallb (fun c => (ch_0 <=? c) && (c <=? ch_9)) ds.

(** Decimal value of a digit string, read left to right from [acc]. *)
Fixpoint decimal_value (acc : Z) (ds : str) : Z :=
  match ds with
  | [] => acc
  | c :: ds' => decimal_value (acc * 10 + (c - ch_0)) ds'
  end.


(** The signed move of a line: [+m] for ['R'], [-m] for ['L'], a negative
    magnitude counting as no move, and [0] for a skipped line. *)
Definition line_move (raw : str) : Z :=
  match trim raw with
  | [] => 0
  | line =>
      match parse_rotation line with
      | Some (Ok (d, m)) => if d =? ch_R then Z.max 0 m else - Z.max 0 m
      | _ => 0
      end
  end.

Definition sum_Z (xs : list Z) : Z := fold_right Z.add 0 xs.

(** All characters are whitespace. *)
Definition all_ws (w : str) : bool := forallb is_whitespace w.


(** * Concrete runs (scenarios of the spec) *)

Example ex_r50 : solve_puzzle (of_ascii "R50") = Some 1.
Proof. reflexivity. Qed.

Example ex_r150 : apply_rotation_with_zero_count 50 ch_R 150 = (0, 2).
Proof. reflexivity. Qed.

Example ex_r25_l25 :
  solve_lines initial_state (str_lines (of_ascii "R25
L25")) = Some (mkState 50 0).
Proof. reflexivity. Qed.

Example ex_skip_bogus :
  solve_lines initial_state (str_lines (of_ascii "R10

BOGUS
L60")) = Some (mkState 0 1).
Proof. reflexivity. Qed.

Example ex_empty : solve_puzzle [] = Some 0.
Proof. reflexivity. Qed.

Example ex_r5x :
  parse_rotation (of_ascii "R5x") = Some (Err (InvalidMagnitude (of_ascii "R5x") InvalidDigit)).
Proof. reflexivity. Qed.

Example ex_rminus5 : parse_rotation (of_ascii "R-5") = Some (Ok (ch_R, -5)).
Proof. reflexivity. Qed.

Example ex_overflow :
  parse_rotation (of_ascii "R2147483648")
  = Some (Err (InvalidMagnitude (of_ascii "R2147483648") PosOverflow)).
Proof. reflexivity. Qed.

Example ex_min : parse_rotation (of_ascii "L-2147483648") = Some (Ok (ch_L, -2147483648)).
Proof. reflexivity. Qed.

Example ex_plus : parse_rotation (of_ascii "L+7") = Some (Ok (ch_L, 7)).
Proof. reflexivity. Qed.

Example ex_multibyte : parse_rotation [233] = Some (Err (InvalidDirection [233])).
Proof. reflexivity. Qed.

Example ex_count_overflow :
  process_line (mkState 50 u32_max) (of_ascii "R50") = None.
Proof. reflexivity. Qed.

Example ex_crlf : str_lines (of_ascii "R1
") = [of_ascii "R1"].
Proof. reflexivity. Qed.

(** * The rotation simulator *)

Section Rotation.

Lemma to_nat_nonpos m : m <= 0 -> Z.to_nat m = O.
Proof. destruct m; simpl; intros; [reflexivity | lia | reflexivity]. Qed.

Lemma rotation_loop_break n d c zc :
  rotation_step d c = None -> rotation_loop n d c zc = (c, zc).
Proof.
  intros Hd; destruct n as [|n]; simpl; [reflexivity|].
  now rewrite Hd.
Qed.

(** The loop unfolded at its last iteration. *)
Lemma rotation_loop_S_last n d c zc :
  rotation_loop (S n) d c zc =
  let (c', z') := rotation_loop n d c zc in
  match rotation_step d c' with
  | None => (c', z')
  | Some c2 => (c2, if c2 =? 0 then z' + 1 else z')
  end.
Proof.
  revert c zc; induction n as [|n IH]; intros c zc.
  - simpl. destruct (rotation_step d c); reflexivity.
  - change (rotation_loop (S (S n)) d c zc) with
      (match rotation_step d c with
       | None => (c, zc)
       | Some c1 => rotation_loop (S n) d c1 (if c1 =? 0 then zc + 1 else zc)
       end).
    destruct (rotation_step d c) as [c1|] eqn:Hs.
    + rewrite IH. simpl. rewrite Hs. reflexivity.
    + rewrite (rotation_loop_break (S n) d c zc Hs). now rewrite Hs.
Qed.

Lemma rotation_step_range d c c' :
  0 <= c < 100 -> rotation_step d c = Some c' -> 0 <= c' < 100.
Proof.
  unfold rotation_step; intros Hc Hs.
  destruct (d =? ch_R); [|destruct (d =? ch_L)]; inversion Hs; subst.
  - rewrite Z.rem_mod_nonneg by lia. apply Z.mod_pos_bound; lia.
  - rewrite Z.rem_mod_nonneg by lia. apply Z.mod_pos_bound; lia.
Qed.

Lemma rotation_loop_range n d c zc :
  0 <= c < 100 -> 0 <= fst (rotation_loop n d c zc) < 100.
Proof.
  revert c zc; induction n as [|n IH]; intros c zc Hc; simpl; [exact Hc|].
  destruct (rotation_step d c) as [c1|] eqn:Hs; simpl; [|exact Hc].
  apply IH. exact (rotation_step_range d c c1 Hc Hs).
Qed.

Lemma rotation_loop_count_bounds n d c zc :
  zc <= snd (rotation_loop n d c zc) <= zc + Z.of_nat n.
Proof.
  revert c zc; induction n as [|n IH]; intros c zc; simpl; [lia|].
  destruct (rotation_step d c) as [c1|]; simpl; [|lia].
  specialize (IH c1 (if c1 =? 0 then zc + 1 else zc)).
  destruct (c1 =? 0); lia.
Qed.

(** For ['L'] and ['R'] a step is the unit move, taken modulo 100. *)
Lemma rotation_step_LR d c :
  d = ch_L \/ d = ch_R -> 0 <= c < 100 ->
  rotation_step d c = Some (spec_target d c 1 mod 100).
Proof.
  intros Hd Hc; unfold rotation_step, spec_target.
  destruct Hd as [-> | ->]; cbn -[Z.rem Z.modulo].
  - rewrite Z.rem_mod_nonneg by lia.
    replace (c - 1 + 100) with (c - 1 + 1 * 100) by lia.
    now rewrite Z.mod_add by lia.
  - now rewrite Z.rem_mod_nonneg by lia.
Qed.

(** Closed form of the loop for ['L'] and ['R']. *)
Lemma rotation_loop_closed d p n :
  d = ch_L \/ d = ch_R -> 0 <= p < 100 ->
  rotation_loop n d p 0 =
  (spec_target d p (Z.of_nat n) mod 100, spec_zero_hits d p n).
Proof.
  intros Hd Hp; induction n as [|n IH].
  - simpl. unfold spec_target.
    destruct (d =? ch_R); rewrite Z.mod_small by lia; f_equal; lia.
  - rewrite rotation_loop_S_last, IH.
    rewrite rotation_step_LR by (try apply Z.mod_pos_bound; lia).
    assert (E : spec_target d (spec_target d p (Z.of_nat n) mod 100) 1 mod 100
                = spec_target d p (Z.of_nat (S n)) mod 100).
    { unfold spec_target; rewrite Nat2Z.inj_succ.
      destruct (d =? ch_R).
      - rewrite Z.add_mod_idemp_l by lia. f_equal; lia.
      - rewrite Zminus_mod_idemp_l. f_equal; lia. }
    rewrite E. cbn [spec_zero_hits].
    destruct (spec_target d p (Z.of_nat (S n)) mod 100 =? 0); f_equal; lia.
Qed.

End Rotation.

(** * The parser *)

Section Parser.

Lemma utf8_width_pos c : 1 <= utf8_width c.
Proof.
  unfold utf8_width.
  destruct (c <? 128); [lia|]. destruct (c <? 2048); [lia|].
  destruct (c <? 65536); lia.
Qed.

Lemma str_len_nonneg s : 0 <= str_len s.
Proof.
  induction s as [|c s IH]; simpl; [lia|]. pose proof (utf8_width_pos c). lia.
Qed.

Lemma utf8_width_LR d : d = ch_L \/ d = ch_R -> utf8_width d = 1.
Proof. intros [-> | ->]; reflexivity. Qed.

Lemma LR_test d : d = ch_L \/ d = ch_R -> ((d =? ch_L) || (d =? ch_R))%bool = true.
Proof. intros [-> | ->]; reflexivity. Qed.

Lemma parse_i32_ok_nonempty s m : parse_i32 s = Ok m -> s <> [].
Proof. intros H ->. discriminate H. Qed.

(** Past the length and direction checks the slice [line[1..]] is the
    tail of the line. *)
Lemma parse_rotation_LR d rest :
  d = ch_L \/ d = ch_R -> rest <> [] ->
  parse_rotation (d :: rest) =
  Some (match parse_i32 rest with
        | Ok n => Ok (d, n)
        | Err e => Err (InvalidMagnitude (d :: rest) e)
        end).
Proof.
  intros Hd Hr. destruct rest as [|c rest']; [congruence|].
  unfold parse_rotation.
  assert (Hlen : (str_len (d :: c :: rest') <? 2) = false).
  { simpl. rewrite utf8_width_LR by exact Hd.
    pose proof (utf8_width_pos c). pose proof (str_len_nonneg rest').
    apply Z.ltb_ge. lia. }
  assert (Hsl : str_slice_from (d :: c :: rest') 1 = Some (c :: rest')).
  { simpl. rewrite utf8_width_LR by exact Hd. reflexivity. }
  rewrite Hlen, LR_test, Hsl by exact Hd.
  destruct (parse_i32 (c :: rest')); reflexivity.
Qed.

Lemma parse_rotation_LR_ok d rest m :
  d = ch_L \/ d = ch_R -> parse_i32 rest = Ok m ->
  parse_rotation (d :: rest) = Some (Ok (d, m)).
Proof.
  intros Hd Hp. rewrite parse_rotation_LR by eauto using parse_i32_ok_nonempty.
  now rewrite Hp.
Qed.

Lemma parse_digits_neg ds acc m :
  acc <= 0 -> parse_digits false ds acc = Ok m -> m <= 0.
Proof.
  revert acc; induction ds as [|c ds IH]; intros acc Hacc H; simpl in H.
  - inversion H; subst; exact Hacc.
  - destruct (to_digit c) as [x|] eqn:Hx; [|discriminate].
    assert (Hx0 : 0 <= x).
    { unfold to_digit in Hx.
      destruct ((ch_0 <=? c) && (c <=? ch_9))%bool eqn:E; inversion Hx; subst.
      apply andb_prop in E as [E1 _]. apply Z.leb_le in E1. lia. }
    destruct (negb (in_i32 (acc * 10))); [discriminate|].
    destruct (negb (in_i32 (acc * 10 - x))); [discriminate|].
    eapply IH; [|exact H]; lia.
Qed.

End Parser.

(** * The driving loop *)

Section Driver.

Lemma solve_lines_app st a b :
  solve_lines st (a ++ b) =
  match solve_lines st a with
  | None => None
  | Some st' => solve_lines st' b
  end.
Proof.
  revert st; induction a as [|l a IH]; intros st; simpl; [reflexivity|].
  destruct (process_line st l); [apply IH | reflexivity].
Qed.

Lemma process_line_range st l st' :
  0 <= position st < 100 -> process_line st l = Some st' ->
  0 <= position st' < 100.
Proof.
  unfold process_line; intros Hst H.
  destruct (trim l) as [|c t]; [inversion H; subst; exact Hst|].
  destruct (parse_rotation (c :: t)) as [[[d n]|e]|]; try discriminate;
    [|inversion H; subst; exact Hst].
  unfold apply_rotation_with_zero_count in H.
  pose proof (rotation_loop_range (Z.to_nat n) d (position st) 0 Hst) as Hr.
  destruct (rotation_loop (Z.to_nat n) d (position st) 0) as [np z].
  destruct (count st + z <=? u32_max); inversion H; subst. exact Hr.
Qed.

Lemma solve_lines_range ls st st' :
  0 <= position st < 100 -> solve_lines st ls = Some st' ->
  0 <= position st' < 100.
Proof.
  revert st; induction ls as [|l ls IH]; intros st Hst H; simpl in H.
  - inversion H; subst; exact Hst.
  - destruct (process_line st l) as [s1|] eqn:Hp; [|discriminate].
    exact (IH s1 (process_line_range st l s1 Hst Hp) H).
Qed.

(** A line that is blank after trimming, or whose parse fails, leaves the
    state as it is. *)
Lemma process_line_skip st l :
  (trim l = [] \/ exists e, parse_rotation (trim l) = Some (Err e)) ->
  process_line st l = Some st.
Proof.
  unfold process_line; cbv zeta; intros [H | [e H]].
  - rewrite H. reflexivity.
  - destruct (trim l) as [|c t]; [reflexivity|]. rewrite H. reflexivity.
Qed.

Lemma solve_lines_all_skipped st ls :
  (forall l, In l ls ->
     trim l = [] \/ exists e, parse_rotation (trim l) = Some (Err e)) ->
  solve_lines st ls = Some st.
Proof.
  induction ls as [|l ls IH]; intros H; simpl; [reflexivity|].
  rewrite process_line_skip by (apply H; left; reflexivity).
  apply IH. intros l' Hl'. apply H. right. exact Hl'.
Qed.

End Driver.

Section DecimalParse.

Lemma all_digits_cons c ds :
  all_digits (c :: ds) = true ->
  to_digit c = Some (c - ch_0) /\ 0 <= c - ch_0 <= 9 /\ all_digits ds = true.
Proof.
  unfold all_digits; simpl; intros H.
  apply andb_prop in H as [Hc Hds]. apply andb_prop in Hc as [H1 H2].
  unfold to_digit. rewrite H1, H2. simpl.
  apply Z.leb_le in H1, H2. unfold ch_0, ch_9 in *. split; [reflexivity|].
  split; [lia | exact Hds].
Qed.

Lemma decimal_value_ge ds acc :
  all_digits ds = true -> 0 <= acc -> acc <= decimal_value acc ds.
Proof.
  revert acc; induction ds as [|c ds IH]; intros acc Hd Ha; simpl; [lia|].
  apply all_digits_cons in Hd as (_ & Hx & Hds).
  specialize (IH (acc * 10 + (c - ch_0)) Hds ltac:(lia)). lia.
Qed.

Lemma parse_digits_pos_ok ds acc :
  all_digits ds = true -> 0 <= acc -> decimal_value acc ds <= i32_max ->
  parse_digits true ds acc = Ok (decimal_value acc ds).
Proof.
  revert acc; induction ds as [|c ds IH]; intros acc Hd Ha Hv; [reflexivity|].
  apply all_digits_cons in Hd as (Hc & Hx & Hds). simpl in Hv |- *.
  rewrite Hc.
  pose proof (decimal_value_ge ds (acc * 10 + (c - ch_0)) Hds ltac:(lia)).
  unfold in_i32, i32_min, i32_max in *.
  replace ((- 2 ^ 31 <=? acc * 10) && (acc * 10 <=? 2 ^ 31 - 1))%bool with true
    by (symmetry; apply andb_true_iff; split; apply Z.leb_le; lia).
  replace ((- 2 ^ 31 <=? acc * 10 + (c - ch_0))
           && (acc * 10 + (c - ch_0) <=? 2 ^ 31 - 1))%bool with true
    by (symmetry; apply andb_true_iff; split; apply Z.leb_le; lia).
  apply IH; [exact Hds | lia | exact Hv].
Qed.

Lemma parse_digits_pos_overflow ds acc :
  all_digits ds = true -> 0 <= acc <= i32_max -> i32_max < decimal_value acc ds ->
  parse_digits true ds acc = Err PosOverflow.
Proof.
  revert acc; induction ds as [|c ds IH]; intros acc Hd Ha Hv; simpl in Hv; [lia|].
  apply all_digits_cons in Hd as (Hc & Hx & Hds). simpl. rewrite Hc.
  destruct (negb (in_i32 (acc * 10))) eqn:E1; [reflexivity|].
  destruct (negb (in_i32 (acc * 10 + (c - ch_0)))) eqn:E2; [reflexivity|].
  apply negb_false_iff in E2. unfold in_i32 in E2.
  apply andb_prop in E2 as [_ E2]. apply Z.leb_le in E2.
  apply IH; [exact Hds | lia | exact Hv].
Qed.

Lemma parse_digits_neg_ok ds acc :
  all_digits ds = true -> acc <= 0 -> i32_min <= - decimal_value (- acc) ds ->
  parse_digits false ds acc = Ok (- decimal_value (- acc) ds).
Proof.
  revert acc; induction ds as [|c ds IH]; intros acc Hd Ha Hv; simpl in Hv |- *.
  - f_equal; lia.
  - apply all_digits_cons in Hd as (Hc & Hx & Hds). rewrite Hc.
    pose proof (decimal_value_ge ds (- acc * 10 + (c - ch_0)) Hds ltac:(lia)).
    unfold in_i32, i32_min, i32_max in *.
    replace ((- 2 ^ 31 <=? acc * 10) && (acc * 10 <=? 2 ^ 31 - 1))%bool with true
      by (symmetry; apply andb_true_iff; split; apply Z.leb_le; lia).
    replace ((- 2 ^ 31 <=? acc * 10 - (c - ch_0))
             && (acc * 10 - (c - ch_0) <=? 2 ^ 31 - 1))%bool with true
      by (symmetry; apply andb_true_iff; split; apply Z.leb_le; lia).
    replace (- acc * 10 + (c - ch_0)) with (- (acc * 10 - (c - ch_0))) in * by lia.
    apply IH; [exact Hds | lia | exact Hv].
Qed.

Lemma parse_digits_neg_overflow ds acc :
  all_digits ds = true -> i32_min <= acc <= 0 ->
  - decimal_value (- acc) ds < i32_min ->
  parse_digits false ds acc = Err NegOverflow.
Proof.
  revert acc; induction ds as [|c ds IH]; intros acc Hd Ha Hv; simpl in Hv; [lia|].
  apply all_digits_cons in Hd as (Hc & Hx & Hds). simpl. rewrite Hc.
  destruct (negb (in_i32 (acc * 10))) eqn:E1; [reflexivity|].
  destruct (negb (in_i32 (acc * 10 - (c - ch_0)))) eqn:E2; [reflexivity|].
  apply negb_false_iff in E2. unfold in_i32 in E2.
  apply andb_prop in E2 as [E2 _]. apply Z.leb_le in E2.
  replace (- acc * 10 + (c - ch_0)) with (- (acc * 10 - (c - ch_0))) in Hv by lia.
  apply IH; [exact Hds | lia | exact Hv].
Qed.

Lemma digit_not_sign c ds :
  all_digits (c :: ds) = true -> (c =? ch_plus) = false /\ (c =? ch_minus) = false.
Proof.
  intros H. apply all_digits_cons in H as (Hc & Hx & _).
  unfold ch_plus, ch_minus, ch_0 in *. split; apply Z.eqb_neq; lia.
Qed.

(** An unsigned digit string goes straight to the digit loop. *)
Lemma parse_i32_digits ds :
  ds <> [] -> all_digits ds = true -> parse_i32 ds = parse_digits true ds 0.
Proof.
  intros Hne Hd. destruct ds as [|c [|c' ds]]; [congruence| |];
    destruct (digit_not_sign _ _ Hd) as [H1 H2]; simpl; rewrite H1, H2;
    reflexivity.
Qed.

End DecimalParse.

(** * Claims *)

(** C1: for a start [p] in [[0,100)], direction ['L'] or ['R'] and
    magnitude [m >= 0], the zero-hit count returned by
    [apply_rotation_with_zero_count] is the number of [k] in [[1, m]] with
    [(p + k) mod 100 = 0] (['R']) or [(p - k) mod 100 = 0] (['L']). *)
Theorem zero_hits_counts_steps p d m :
  0 <= p < 100 -> d = ch_L \/ d = ch_R -> 0 <= m ->
  snd (apply_rotation_with_zero_count p d m) = spec_zero_hits d p (Z.to_nat m).
Proof.
  intros Hp Hd _. unfold apply_rotation_with_zero_count.
  rewrite rotation_loop_closed by assumption. reflexivity.
Qed.

Lemma zero_hits_counts_steps_witness :
  snd (apply_rotation_with_zero_count 50 ch_R 150)
  = spec_zero_hits ch_R 50 (Z.to_nat 150).
Proof.
  apply zero_hits_counts_steps; [lia | right; reflexivity | lia].
Defined.

(** C2: for a start [p] in [[0,100)] and magnitude [m >= 0], the returned
    position is [(p + m) mod 100] for ['R'] and [(p - m) mod 100] (taken
    into [[0,100)]) for ['L']. *)
Theorem new_position_mod p m :
  0 <= p < 100 -> 0 <= m ->
  fst (apply_rotation_with_zero_count p ch_R m) = (p + m) mod 100 /\
  fst (apply_rotation_with_zero_count p ch_L m) = (p - m) mod 100.
Proof.
  intros Hp Hm. unfold apply_rotation_with_zero_count.
  rewrite !rotation_loop_closed by (auto; lia).
  unfold spec_target; simpl fst. rewrite Z2Nat.id by exact Hm.
  split; reflexivity.
Qed.

Lemma new_position_mod_witness :
  fst (apply_rotation_with_zero_count 50 ch_R 175) = (50 + 175) mod 100 /\
  fst (apply_rotation_with_zero_count 50 ch_L 175) = (50 - 175) mod 100.
Proof. apply new_position_mod; lia. Defined.

(** C3: from a position in [[0,100)], the position after every iteration
    of the simulator's loop, and the position it returns, are in
    [[0,100)]; the position threaded through [solve_puzzle] from [50] is in
    [[0,100)] after every prefix of the input's lines. *)
Theorem position_always_in_range p d m :
  0 <= p < 100 ->
  (forall k, (k <= Z.to_nat m)%nat -> 0 <= fst (rotation_loop k d p 0) < 100)
  /\ 0 <= fst (apply_rotation_with_zero_count p d m) < 100
  /\ (forall input pre post st,
        str_lines input = pre ++ post ->
        solve_lines initial_state pre = Some st ->
        0 <= position st < 100).
Proof.
  intros Hp. split; [|split].
  - intros k _. apply rotation_loop_range; exact Hp.
  - apply rotation_loop_range; exact Hp.
  - intros input pre post st _ H.
    apply (solve_lines_range pre initial_state st); [simpl; lia | exact H].
Qed.

Lemma position_always_in_range_witness :
  0 <= fst (apply_rotation_with_zero_count 99 ch_R 1) < 100.
Proof.
  apply (position_always_in_range 99 ch_R 1); lia.
Defined.

(** C4 (as stated): for a position in [[0,100)] and any integer
    magnitude, [0 <= zero_hits <= magnitude].  It fails at a negative
    magnitude: [0..-5] runs no step, so [zero_hits = 0 > -5]. *)
Lemma zero_hits_le_magnitude_fails :
  ~ (forall p d m, 0 <= p < 100 ->
       0 <= snd (apply_rotation_with_zero_count p d m) <= m).
Proof.
  intros H. specialize (H 50 ch_R (-5) ltac:(lia)).
  simpl in H. lia.
Qed.

(** C4 (amended): for any position, direction and integer magnitude,
    [0 <= zero_hits <= max 0 magnitude]. *)
Theorem zero_hits_bounded p d m :
  0 <= snd (apply_rotation_with_zero_count p d m) <= Z.max 0 m.
Proof.
  unfold apply_rotation_with_zero_count.
  pose proof (rotation_loop_count_bounds (Z.to_nat m) d p 0) as H.
  destruct (Z.le_gt_cases 0 m).
  - rewrite Z2Nat.id in H by assumption. rewrite Z.max_r by assumption. lia.
  - rewrite to_nat_nonpos by lia. rewrite Z.max_l by lia. simpl. lia.
Qed.

(** C5: a line ['L'] or ['R'] followed by text that parses as a negative
    [i32] (e.g. ["R-5"]) parses to that negative magnitude, and the
    simulator then runs no step: position unchanged, no zero hit. *)
Theorem negative_magnitude_zero_steps d rest m p :
  d = ch_L \/ d = ch_R -> parse_i32 rest = Ok m -> m < 0 ->
  parse_rotation (d :: rest) = Some (Ok (d, m)) /\
  apply_rotation_with_zero_count p d m = (p, 0).
Proof.
  intros Hd Hp Hm. split.
  - exact (parse_rotation_LR_ok d rest m Hd Hp).
  - unfold apply_rotation_with_zero_count. rewrite to_nat_nonpos by lia.
    reflexivity.
Qed.

Lemma negative_magnitude_zero_steps_witness :
  parse_rotation (of_ascii "R-5") = Some (Ok (ch_R, -5)) /\
  apply_rotation_with_zero_count 50 ch_R (-5) = (50, 0).
Proof.
  apply (negative_magnitude_zero_steps ch_R (of_ascii "-5") (-5) 50);
    [right; reflexivity | reflexivity | lia].
Defined.

(** C6 (as stated): the parser rejects a magnitude with a leading ['-'],
    such as ["R-5"].  It does not: ["R-5"] parses to [('R', -5)]. *)
Lemma leading_minus_rejected_fails :
  ~ (exists e, parse_rotation (of_ascii "R-5") = Some (Err e)).
Proof.
  intros [e H]. vm_compute in H. discriminate H.
Qed.

(** C6 (amended): a leading ['-'] is accepted: ['L'] or ['R'], then
    ['-'], then a non-empty string of ASCII digits of value [v <= 2^31]
    (so that [-v] fits in [i32]) parses to that direction and the
    magnitude [-v], which is [<= 0]. *)
Theorem leading_minus_accepted d ds :
  d = ch_L \/ d = ch_R -> ds <> [] -> all_digits ds = true ->
  decimal_value 0 ds <= 2 ^ 31 ->
  parse_rotation (d :: ch_minus :: ds) = Some (Ok (d, - decimal_value 0 ds)) /\
  - decimal_value 0 ds <= 0.
Proof.
  intros Hd Hne Hds Hv.
  pose proof (decimal_value_ge ds 0 Hds ltac:(lia)) as Hge.
  split; [|lia].
  rewrite parse_rotation_LR by (auto; discriminate).
  destruct ds as [|c ds]; [congruence|].
  change (parse_i32 (ch_minus :: c :: ds)) with
    (if ch_minus =? ch_plus then parse_digits true (c :: ds) 0
     else if ch_minus =? ch_minus then parse_digits false (c :: ds) 0
     else parse_digits true (ch_minus :: c :: ds) 0).
  replace (ch_minus =? ch_plus) with false by reflexivity. rewrite Z.eqb_refl.
  rewrite parse_digits_neg_ok;
    [reflexivity | exact Hds | lia | change (- 0) with 0; unfold i32_min; lia].
Qed.

Lemma leading_minus_accepted_witness :
  parse_rotation (of_ascii "L-12") = Some (Ok (ch_L, -12)) /\ -12 <= 0.
Proof.
  apply (leading_minus_accepted ch_L (of_ascii "12"));
    [left; reflexivity | discriminate | reflexivity | apply Z.leb_le; reflexivity].
Defined.

(** C7 (as stated): fewer than 2 characters gives [TooShort].  A single
    two-byte character such as U+00E9 is 2 bytes long, so [line.len() < 2]
    does not hold and the line fails with [InvalidDirection]. *)
Lemma one_char_too_short_fails :
  ~ (forall line : str, (List.length line < 2)%nat ->
       parse_rotation line = Some (Err (TooShort line))).
Proof.
  intros H. specialize (H [233] ltac:(simpl; lia)).
  vm_compute in H. discriminate H.
Qed.

(** C7 (amended): with lengths counted in bytes (UTF-8), the checks apply
    in order: fewer than 2 bytes gives [TooShort]; otherwise a first
    character other than ['L'] and ['R'] gives [InvalidDirection];
    otherwise a tail that does not parse as an [i32] gives
    [InvalidMagnitude]. *)
Theorem parse_rotation_error_order line :
  (str_len line < 2 -> parse_rotation line = Some (Err (TooShort line))) /\
  (forall d rest, line = d :: rest -> 2 <= str_len line ->
     d <> ch_L -> d <> ch_R ->
     parse_rotation line = Some (Err (InvalidDirection line))) /\
  (forall d rest e, line = d :: rest -> 2 <= str_len line ->
     d = ch_L \/ d = ch_R -> parse_i32 rest = Err e ->
     parse_rotation line = Some (Err (InvalidMagnitude line e))).
Proof.
  split; [|split].
  - intros H. unfold parse_rotation. apply Z.ltb_lt in H. rewrite H.
    reflexivity.
  - intros d rest -> Hl HL HR. unfold parse_rotation.
    replace (str_len (d :: rest) <? 2) with false by (symmetry; apply Z.ltb_ge; lia).
    apply Z.eqb_neq in HL, HR. rewrite HL, HR. reflexivity.
  - intros d rest e -> Hl Hd He.
    assert (Hr : rest <> []).
    { intros ->. simpl in Hl. rewrite utf8_width_LR in Hl by exact Hd. lia. }
    rewrite parse_rotation_LR by assumption. rewrite He. reflexivity.
Qed.

Lemma parse_rotation_error_order_witness :
  parse_rotation (of_ascii "R") = Some (Err (TooShort (of_ascii "R"))) /\
  parse_rotation (of_ascii "r5") = Some (Err (InvalidDirection (of_ascii "r5"))) /\
  parse_rotation (of_ascii "R5x")
  = Some (Err (InvalidMagnitude (of_ascii "R5x") InvalidDigit)).
Proof.
  split; [|split].
  - apply (proj1 (parse_rotation_error_order (of_ascii "R"))). apply Z.ltb_lt. reflexivity.
  - apply (proj1 (proj2 (parse_rotation_error_order (of_ascii "r5")))
             114 (of_ascii "5"));
      [reflexivity | apply Z.leb_le; reflexivity | discriminate | discriminate].
  - apply (proj2 (proj2 (parse_rotation_error_order (of_ascii "R5x")))
             ch_R (of_ascii "5x"));
      [reflexivity | apply Z.leb_le; reflexivity | right; reflexivity | reflexivity].
Defined.

(** C8: a non-blank line whose parse fails is skipped: the state (position
    and count) is unchanged, the run goes on, and the result over the
    remaining lines is that of the input without the line. *)
Theorem parse_failure_skipped st l e pre post :
  trim l <> [] -> parse_rotation (trim l) = Some (Err e) ->
  process_line st l = Some st /\
  solve_lines st (pre ++ l :: post) = solve_lines st (pre ++ post).
Proof.
  intros _ He.
  assert (Hs : process_line st l = Some st)
    by (apply process_line_skip; right; exists e; exact He).
  split; [exact Hs|].
  rewrite !solve_lines_app. destruct (solve_lines st pre) as [s1|]; [|reflexivity].
  simpl. rewrite process_line_skip; [reflexivity|]. right. exists e.
  exact He.
Qed.

Lemma parse_failure_skipped_witness :
  process_line initial_state (of_ascii " BOGUS ") = Some initial_state /\
  solve_lines initial_state ([of_ascii "R10"] ++ of_ascii " BOGUS " :: [of_ascii "L60"])
  = solve_lines initial_state ([of_ascii "R10"] ++ [of_ascii "L60"]).
Proof.
  apply (parse_failure_skipped initial_state (of_ascii " BOGUS ")
           (InvalidDirection (of_ascii "BOGUS"))); [discriminate | reflexivity].
Defined.

(** C9: an input none of whose lines is a valid command (each is blank
    after trimming or fails to parse), including the empty input, gives
    [0]. *)
Theorem no_valid_line_zero input :
  (forall l, In l (str_lines input) ->
     trim l = [] \/ exists e, parse_rotation (trim l) = Some (Err e)) ->
  solve_puzzle input = Some 0.
Proof.
  intros H. unfold solve_puzzle.
  rewrite (solve_lines_all_skipped initial_state _ H). reflexivity.
Qed.

Lemma no_valid_line_zero_witness :
  solve_puzzle (of_ascii "BOGUS

  
X5") = Some 0.
Proof.
  apply no_valid_line_zero. intros l Hl. vm_compute in Hl.
  repeat destruct Hl as [<- | Hl];
    first [left; reflexivity | right; eexists; reflexivity | contradiction].
Defined.

(** C10: [parse_rotation] never panics: the slice [line[1..]] is reached
    only after the first character is the one-byte ['L'] or ['R'], so
    byte 1 is a character boundary. *)
Theorem parse_rotation_total line : parse_rotation line <> None.
Proof.
  unfold parse_rotation.
  destruct (str_len line <? 2); [discriminate|].
  destruct line as [|d rest]; [discriminate|].
  destruct ((d =? ch_L) || (d =? ch_R))%bool eqn:E; [|discriminate].
  assert (Hw : utf8_width d = 1).
  { apply orb_true_iff in E as [E | E]; apply Z.eqb_eq in E; subst;
      reflexivity. }
  assert (Hsl : str_slice_from (d :: rest) 1 = Some rest).
  { simpl. rewrite Hw. destruct rest; reflexivity. }
  rewrite Hsl. destruct (parse_i32 rest); discriminate.
Qed.

(** * Further properties of the code *)

Section RotationMore.

Lemma rotation_loop_shift m d c z :
  rotation_loop m d c z =
  (fst (rotation_loop m d c 0), z + snd (rotation_loop m d c 0)).
Proof.
  revert c z; induction m as [|m IH]; intros c z; simpl; [f_equal; lia|].
  destruct (rotation_step d c) as [c1|]; simpl; [|f_equal; lia].
  rewrite (IH c1 (if c1 =? 0 then z + 1 else z)),
          (IH c1 (if c1 =? 0 then 1 else 0)).
  simpl. destruct (c1 =? 0); f_equal; lia.
Qed.

Lemma rotation_loop_add n m d c zc :
  rotation_loop (n + m) d c zc =
  let (c1, z1) := rotation_loop n d c zc in rotation_loop m d c1 z1.
Proof.
  revert c zc; induction n as [|n IH]; intros c zc; [reflexivity|].
  simpl. destruct (rotation_step d c) as [c1|] eqn:Hs; [apply IH|].
  symmetry; apply rotation_loop_break; exact Hs.
Qed.

Lemma div100_succ x :
  0 <= x ->
  (x + 1) / 100 = x / 100 + (if (x + 1) mod 100 =? 0 then 1 else 0).
Proof.
  intros Hx.
  pose proof (Z.div_mod x 100 ltac:(lia)) as Hd.
  pose proof (Z.mod_pos_bound x 100 ltac:(lia)) as Hb.
  set (q := x / 100) in *. set (r := x mod 100) in *.
  destruct (Z.eq_dec r 99) as [E|E].
  - assert (Hq : (x + 1) / 100 = q + 1)
      by (symmetry; apply (Z.div_unique_pos _ _ _ 0); lia).
    assert (Hr : (x + 1) mod 100 = 0)
      by (symmetry; apply (Z.mod_unique_pos _ _ (q + 1)); lia).
    rewrite Hq, Hr. reflexivity.
  - assert (Hq : (x + 1) / 100 = q)
      by (symmetry; apply (Z.div_unique_pos _ _ _ (r + 1)); lia).
    assert (Hr : (x + 1) mod 100 = r + 1)
      by (symmetry; apply (Z.mod_unique_pos _ _ q); lia).
    rewrite Hq, Hr. replace (r + 1 =? 0) with false by (symmetry; apply Z.eqb_neq; lia).
    lia.
Qed.

Lemma spec_zero_hits_R p n :
  0 <= p < 100 -> spec_zero_hits ch_R p n = (p + Z.of_nat n) / 100.
Proof.
  intros Hp; induction n as [|n IH].
  - simpl. rewrite Z.add_0_r, Z.div_small by lia. reflexivity.
  - cbn [spec_zero_hits]. rewrite IH. unfold spec_target. simpl (ch_R =? ch_R).
    rewrite Nat2Z.inj_succ, <- Z.add_1_r, Z.add_assoc.
    rewrite (div100_succ (p + Z.of_nat n)) by lia. reflexivity.
Qed.

Lemma mod100_zero_opp a : (a mod 100 =? 0) = ((- a) mod 100 =? 0).
Proof.
  destruct (a mod 100 =? 0) eqn:E1, ((- a) mod 100 =? 0) eqn:E2; try reflexivity.
  - apply Z.eqb_eq in E1. apply Z.eqb_neq in E2.
    exfalso. apply E2. apply Z.mod_opp_l_z; lia.
  - apply Z.eqb_neq in E1. apply Z.eqb_eq in E2.
    exfalso. apply E1. rewrite <- (Z.opp_involutive a).
    apply Z.mod_opp_l_z; lia.
Qed.

Lemma spec_zero_hits_L p n :
  0 <= p < 100 ->
  spec_zero_hits ch_L p n = spec_zero_hits ch_R ((100 - p) mod 100) n.
Proof.
  intros Hp; induction n as [|n IH]; [reflexivity|].
  cbn [spec_zero_hits]. rewrite IH. f_equal. unfold spec_target.
  replace (ch_L =? ch_R) with false by reflexivity.
  replace (ch_R =? ch_R) with true by reflexivity.
  set (k := Z.of_nat (S n)).
  rewrite Z.add_mod_idemp_l by lia.
  replace (100 - p + k) with (- (p - k) + 1 * 100) by lia.
  rewrite Z.mod_add by lia. now rewrite mod100_zero_opp.
Qed.

End RotationMore.

(** X1: with a direction other than ['L'] and ['R'] the loop body takes
    its [break] arm at once: the position is returned unchanged with no
    zero hit, whatever the magnitude. *)
Theorem rotation_other_direction_noop p d m :
  d <> ch_L -> d <> ch_R ->
  apply_rotation_with_zero_count p d m = (p, 0).
Proof.
  intros HL HR. apply rotation_loop_break. unfold rotation_step.
  apply Z.eqb_neq in HL, HR. rewrite HR, HL. reflexivity.
Qed.

Lemma rotation_other_direction_noop_witness :
  apply_rotation_with_zero_count 37 (Z.of_nat (nat_of_ascii "U"%char)) 250 = (37, 0).
Proof. apply rotation_other_direction_noop; discriminate. Defined.

(** X2: a rotation by [a + b] (both [>= 0]) is the rotation by [a]
    followed by the rotation by [b] from where it stopped; the zero hits
    add up. *)
Theorem rotation_compose p d a b :
  0 <= a -> 0 <= b ->
  apply_rotation_with_zero_count p d (a + b) =
  let (p1, z1) := apply_rotation_with_zero_count p d a in
  let (p2, z2) := apply_rotation_with_zero_count p1 d b in
  (p2, z1 + z2).
Proof.
  intros Ha Hb. unfold apply_rotation_with_zero_count.
  rewrite Z2Nat.inj_add by assumption. rewrite rotation_loop_add.
  destruct (rotation_loop (Z.to_nat a) d p 0) as [p1 z1].
  rewrite rotation_loop_shift. destruct (rotation_loop (Z.to_nat b) d p1 0); reflexivity.
Qed.

Lemma rotation_compose_witness :
  apply_rotation_with_zero_count 50 ch_L (120 + 85) =
  let (p1, z1) := apply_rotation_with_zero_count 50 ch_L 120 in
  let (p2, z2) := apply_rotation_with_zero_count p1 ch_L 85 in
  (p2, z1 + z2).
Proof. apply rotation_compose; lia. Defined.

(** X3: turning right by [m >= 0] from [p] in [[0,100)] hits 0 exactly
    [(p + m) / 100] times. *)
Theorem zero_hits_right_closed_form p m :
  0 <= p < 100 -> 0 <= m ->
  snd (apply_rotation_with_zero_count p ch_R m) = (p + m) / 100.
Proof.
  intros Hp Hm. unfold apply_rotation_with_zero_count.
  rewrite rotation_loop_closed by (auto; lia). simpl snd.
  rewrite spec_zero_hits_R, Z2Nat.id by assumption. reflexivity.
Qed.

Lemma zero_hits_right_closed_form_witness :
  snd (apply_rotation_with_zero_count 50 ch_R 1050) = (50 + 1050) / 100.
Proof. apply zero_hits_right_closed_form; lia. Defined.

(** X4: turning left by [m >= 0] from [p] in [[0,100)] hits 0 exactly
    [(m + (100 - p) mod 100) / 100] times: once on reaching 0 after [p]
    steps (after 100 steps when [p = 0]), then once per further 100. *)
Theorem zero_hits_left_closed_form p m :
  0 <= p < 100 -> 0 <= m ->
  snd (apply_rotation_with_zero_count p ch_L m) = (m + (100 - p) mod 100) / 100.
Proof.
  intros Hp Hm. unfold apply_rotation_with_zero_count.
  rewrite rotation_loop_closed by (auto; lia). simpl snd.
  rewrite spec_zero_hits_L by assumption.
  pose proof (Z.mod_pos_bound (100 - p) 100 ltac:(lia)).
  rewrite spec_zero_hits_R, Z2Nat.id by assumption.
  f_equal. lia.
Qed.

Lemma zero_hits_left_closed_form_witness :
  snd (apply_rotation_with_zero_count 0 ch_L 250) = (250 + (100 - 0) mod 100) / 100.
Proof. apply zero_hits_left_closed_form; lia. Defined.

(** X5: a full turn of 100 steps in either direction comes back to the
    starting position and hits 0 exactly once. *)
Theorem full_turn_one_hit p d :
  0 <= p < 100 -> d = ch_L \/ d = ch_R ->
  apply_rotation_with_zero_count p d 100 = (p, 1).
Proof.
  intros Hp Hd. unfold apply_rotation_with_zero_count.
  rewrite rotation_loop_closed by assumption.
  destruct Hd as [-> | ->].
  - rewrite spec_zero_hits_L by assumption.
    pose proof (Z.mod_pos_bound (100 - p) 100 ltac:(lia)) as Hy.
    rewrite spec_zero_hits_R by assumption.
    unfold spec_target. replace (ch_L =? ch_R) with false by reflexivity.
    rewrite Z2Nat.id by lia.
    set (y := (100 - p) mod 100) in *. f_equal.
    + symmetry. apply (Z.mod_unique_pos _ _ (-1)); lia.
    + symmetry. apply (Z.div_unique_pos _ _ _ y); lia.
  - rewrite spec_zero_hits_R by assumption.
    unfold spec_target. replace (ch_R =? ch_R) with true by reflexivity.
    rewrite Z2Nat.id by lia. f_equal.
    + symmetry. apply (Z.mod_unique_pos _ _ 1); lia.
    + symmetry. apply (Z.div_unique_pos _ _ _ p); lia.
Qed.

Lemma full_turn_one_hit_witness :
  apply_rotation_with_zero_count 0 ch_L 100 = (0, 1).
Proof. apply full_turn_one_hit; [lia | left; reflexivity]. Defined.


(** X6: a line ['L'] or ['R'] followed by a non-empty string of decimal
    digits (leading zeros allowed), optionally preceded by ['+'], whose
    value fits in [i32] parses to that direction and value. *)
Theorem parse_rotation_decimal d ds :
  d = ch_L \/ d = ch_R -> ds <> [] -> all_digits ds = true ->
  decimal_value 0 ds <= i32_max ->
  parse_rotation (d :: ds) = Some (Ok (d, decimal_value 0 ds)) /\
  parse_rotation (d :: ch_plus :: ds) = Some (Ok (d, decimal_value 0 ds)).
Proof.
  intros Hd Hne Hds Hv.
  pose proof (parse_digits_pos_ok ds 0 Hds ltac:(lia) Hv) as Hp.
  split; rewrite parse_rotation_LR by (auto; discriminate).
  - rewrite parse_i32_digits, Hp by assumption. reflexivity.
  - destruct ds as [|c ds]; [congruence|].
    change (parse_i32 (ch_plus :: c :: ds)) with
      (if ch_plus =? ch_plus then parse_digits true (c :: ds) 0
       else if ch_plus =? ch_minus then parse_digits false (c :: ds) 0
       else parse_digits true (ch_plus :: c :: ds) 0).
    rewrite Z.eqb_refl, Hp. reflexivity.
Qed.

Lemma parse_rotation_decimal_witness :
  parse_rotation (of_ascii "R0042") = Some (Ok (ch_R, 42)) /\
  parse_rotation (ch_R :: ch_plus :: of_ascii "0042") = Some (Ok (ch_R, 42)).
Proof.
  apply (parse_rotation_decimal ch_R (of_ascii "0042"));
    [right; reflexivity | discriminate | reflexivity | apply Z.leb_le; reflexivity].
Defined.

(** X7: a line ['L'] or ['R'] followed by decimal digits whose value
    exceeds [2^31 - 1] fails with [InvalidMagnitude] carrying the
    positive-overflow error. *)
Theorem parse_rotation_pos_overflow d ds :
  d = ch_L \/ d = ch_R -> all_digits ds = true ->
  i32_max < decimal_value 0 ds ->
  parse_rotation (d :: ds) = Some (Err (InvalidMagnitude (d :: ds) PosOverflow)).
Proof.
  intros Hd Hds Hv.
  assert (Hne : ds <> []) by (intros ->; simpl in Hv; unfold i32_max in Hv; lia).
  rewrite parse_rotation_LR by assumption.
  rewrite parse_i32_digits, parse_digits_pos_overflow by (auto; unfold i32_max; lia).
  reflexivity.
Qed.

Lemma parse_rotation_pos_overflow_witness :
  parse_rotation (of_ascii "L2147483648")
  = Some (Err (InvalidMagnitude (of_ascii "L2147483648") PosOverflow)).
Proof.
  apply (parse_rotation_pos_overflow ch_L (of_ascii "2147483648"));
    [left; reflexivity | reflexivity | apply Z.ltb_lt; reflexivity].
Defined.

(** X8: with a ['-'] sign, non-empty decimal digits of value [v] give the
    magnitude [-v] when [v <= 2^31], and fail with [InvalidMagnitude]
    carrying the negative-overflow error when [v > 2^31]. *)
Theorem parse_rotation_negative_decimal d ds :
  d = ch_L \/ d = ch_R -> ds <> [] -> all_digits ds = true ->
  (decimal_value 0 ds <= 2 ^ 31 ->
   parse_rotation (d :: ch_minus :: ds) = Some (Ok (d, - decimal_value 0 ds))) /\
  (2 ^ 31 < decimal_value 0 ds ->
   parse_rotation (d :: ch_minus :: ds)
   = Some (Err (InvalidMagnitude (d :: ch_minus :: ds) NegOverflow))).
Proof.
  intros Hd Hne Hds.
  rewrite parse_rotation_LR by (auto; discriminate).
  destruct ds as [|c ds]; [congruence|].
  change (parse_i32 (ch_minus :: c :: ds)) with
    (if ch_minus =? ch_plus then parse_digits true (c :: ds) 0
     else if ch_minus =? ch_minus then parse_digits false (c :: ds) 0
     else parse_digits true (ch_minus :: c :: ds) 0).
  replace (ch_minus =? ch_plus) with false by reflexivity. rewrite Z.eqb_refl.
  split; intros Hv.
  - rewrite parse_digits_neg_ok;
      [reflexivity | exact Hds | lia | change (- 0) with 0; unfold i32_min; lia].
  - rewrite parse_digits_neg_overflow;
      [reflexivity | exact Hds | unfold i32_min; lia
      | change (- 0) with 0; unfold i32_min; lia].
Qed.

Lemma parse_rotation_negative_decimal_witness :
  parse_rotation (of_ascii "L-2147483648") = Some (Ok (ch_L, -2147483648)).
Proof.
  apply (parse_rotation_negative_decimal ch_L (of_ascii "2147483648"));
    [left; reflexivity | discriminate | reflexivity | apply Z.leb_le; reflexivity].
Defined.

Section LoopMore.

Lemma parse_rotation_ok_dir line d m :
  parse_rotation line = Some (Ok (d, m)) -> d = ch_L \/ d = ch_R.
Proof.
  unfold parse_rotation. destruct (str_len line <? 2); [discriminate|].
  destruct line as [|d' rest]; [discriminate|].
  destruct ((d' =? ch_L) || (d' =? ch_R))%bool eqn:E; [|discriminate].
  destruct (str_slice_from (d' :: rest) 1) as [tl|]; [|discriminate].
  destruct (parse_i32 tl); intros H; inversion H; subst.
  apply orb_true_iff in E as [E | E]; apply Z.eqb_eq in E; auto.
Qed.

Lemma trim_start_ws_app w s : all_ws w = true -> trim_start (w ++ s) = trim_start s.
Proof.
  induction w as [|c w IH]; simpl; [reflexivity|].
  intros H. apply andb_prop in H as [Hc Hw]. rewrite Hc. apply IH, Hw.
Qed.

Lemma trim_start_app_ws s w :
  all_ws w = true ->
  trim_start (s ++ w) = match trim_start s with [] => [] | t => t ++ w end.
Proof.
  intros Hw. induction s as [|c s IH]; simpl.
  - rewrite <- (app_nil_r w), trim_start_ws_app by exact Hw. reflexivity.
  - destruct (is_whitespace c); [exact IH | reflexivity].
Qed.

Lemma all_ws_rev w : all_ws (rev w) = all_ws w.
Proof.
  unfold all_ws. induction w as [|c w IH]; simpl; [reflexivity|].
  rewrite forallb_app, IH. simpl. rewrite andb_true_r. apply andb_comm.
Qed.

Lemma trim_end_app_ws s w : all_ws w = true -> trim_end (s ++ w) = trim_end s.
Proof.
  intros Hw. unfold trim_end. rewrite rev_app_distr, trim_start_ws_app;
    [reflexivity|]. rewrite all_ws_rev. exact Hw.
Qed.

(** Surrounding whitespace does not change [str::trim]. *)
Lemma trim_pad w1 l w2 :
  all_ws w1 = true -> all_ws w2 = true -> trim (w1 ++ l ++ w2) = trim l.
Proof.
  intros H1 H2. unfold trim. rewrite trim_start_ws_app by exact H1.
  rewrite trim_start_app_ws by exact H2.
  destruct (trim_start l) as [|c t]; [reflexivity|].
  apply trim_end_app_ws, H2.
Qed.

Lemma to_nat_max m : Z.of_nat (Z.to_nat m) = Z.max 0 m.
Proof.
  destruct (Z.le_gt_cases 0 m).
  - rewrite Z2Nat.id, Z.max_r; lia.
  - rewrite to_nat_nonpos, Z.max_l; simpl; lia.
Qed.

Lemma process_line_position st l st' :
  0 <= position st < 100 -> process_line st l = Some st' ->
  position st' = (position st + line_move l) mod 100.
Proof.
  intros Hp. unfold process_line, line_move; cbv zeta.
  destruct (trim l) as [|c t];
    [intros H; inversion H; subst; rewrite Z.add_0_r, Z.mod_small; lia|].
  destruct (parse_rotation (c :: t)) as [[[d m]|e]|] eqn:Hr; try discriminate;
    [|intros H; inversion H; subst; rewrite Z.add_0_r, Z.mod_small; lia].
  pose proof (parse_rotation_ok_dir _ _ _ Hr) as Hd.
  unfold apply_rotation_with_zero_count.
  rewrite rotation_loop_closed by assumption.
  intros H. destruct (_ <=? u32_max) in H; inversion H; subst; simpl.
  unfold spec_target. rewrite to_nat_max.
  destruct (d =? ch_R); f_equal; lia.
Qed.




End LoopMore.

(** X9: whitespace around a line does not matter: padding a line with
    whitespace on either side leaves the loop body's effect unchanged. *)
Theorem process_line_pad st w1 l w2 :
  all_ws w1 = true -> all_ws w2 = true ->
  process_line st (w1 ++ l ++ w2) = process_line st l.
Proof.
  intros H1 H2. unfold process_line. rewrite trim_pad by assumption.
  reflexivity.
Qed.

Lemma process_line_pad_witness :
  process_line initial_state ([32; 9] ++ of_ascii "R5" ++ [13; 32])
  = process_line initial_state (of_ascii "R5").
Proof. apply process_line_pad; reflexivity. Defined.

(** X11: a line that is blank after trimming is skipped silently: it
    emits no warning and removing it from the input leaves the result of
    the loop unchanged. *)
Theorem blank_line_skipped st l pre post :
  trim l = [] ->
  line_warning l = [] /\
  solve_lines st (pre ++ l :: post) = solve_lines st (pre ++ post).
Proof.
  intros Hb. split.
  - unfold line_warning; cbv zeta. rewrite Hb. reflexivity.
  - rewrite !solve_lines_app. destruct (solve_lines st pre) as [s1|]; [|reflexivity].
    simpl. unfold process_line at 1; cbv zeta. rewrite Hb. reflexivity.
Qed.

Lemma blank_line_skipped_witness :
  line_warning [32; 9] = [] /\
  solve_lines initial_state ([of_ascii "R10"] ++ [32; 9] :: [of_ascii "L60"])
  = solve_lines initial_state ([of_ascii "R10"] ++ [of_ascii "L60"]).
Proof. apply blank_line_skipped. reflexivity. Defined.

(** X12: starting from a position in [[0,100)], the position the loop
    ends at is the start plus the signed magnitudes of the accepted lines
    ([+m] for ['R'], [-m] for ['L'], negative magnitudes counting as 0),
    modulo 100. *)
Theorem final_position_net_move st ls st' :
  0 <= position st < 100 -> solve_lines st ls = Some st' ->
  position st' = (position st + sum_Z (map line_move ls)) mod 100.
Proof.
  revert st; induction ls as [|l ls IH]; intros st Hp H; simpl in H |- *.
  - inversion H; subst. rewrite Z.add_0_r, Z.mod_small; lia.
  - destruct (process_line st l) as [s1|] eqn:Hs; [|discriminate].
    pose proof (process_line_position st l s1 Hp Hs) as E.
    pose proof (process_line_range st l s1 Hp Hs) as Hr.
    rewrite (IH s1 Hr H), E.
    rewrite Z.add_mod_idemp_l by lia. f_equal; lia.
Qed.

Lemma final_position_net_move_witness :
  position (mkState 0 3) = (50 + sum_Z (map line_move (str_lines (of_ascii "R10
BOGUS
L-3
L260")))) mod 100.
Proof.
  apply (final_position_net_move initial_state _ (mkState 0 3));
    [simpl; lia | reflexivity].
Defined.




